(** * SayHelloWorkflow: the greeting workflow of [workflows.py]

    The workflow class has one field ([_complete]), one entry point
    ([run]) and one signal handler ([signal_complete]).  Both routines are
    coroutines over the capabilities of the durable-execution SDK
    ([workflow.logger.info], [workflow.wait_condition],
    [workflow.execute_activity]) and over the ambient context variable
    [user_id].  They are embedded as terms of a small free monad of
    those capabilities, and the host scheduler is a deterministic machine
    that runs one routine at a time up to its next suspension point. *)

From Stdlib Require Import String List ZArith Bool Lia.
From ExtLib Require Import Structures.Monad Structures.MonadExc.
Import ListNotations.
Import MonadNotation.
Local Open Scope string_scope.
Local Open Scope list_scope.
Local Open Scope monad_scope.

Set Implicit Arguments.

(** ** Data *)

(** [datetime.timedelta]: the constructor normalises its arguments to
    days, seconds ([0 <= seconds < 86400]) and microseconds. *)
Record timedelta : Type := {
  days : Z;
  seconds : Z;
  microseconds : Z
}.

(** [timedelta(minutes=m)]. *)
Definition timedelta_minutes (minutes : Z) : timedelta :=
  let total := (minutes * 60)%Z in
  {| days := (total / 86400)%Z;
     seconds := (total mod 86400)%Z;
     microseconds := 0%Z |}.

(** [timedelta.total_seconds()], on whole seconds. *)
Definition total_seconds (t : timedelta) : Z :=
  (days t * 86400 + seconds t)%Z.

(** The activities the workflow module imports from [activities]; what
    an activity answers is the Activity Invoker's business and reaches the
    workflow as an [activity_outcome]. *)
Inductive activity_ref : Type :=
| say_hello_activity.

(** The instance state of the class: [self._complete]. *)
Record SayHelloWorkflow : Type := {
  _complete : bool
}.

(** [SayHelloWorkflow.__init__]: [self._complete = False]. *)
Definition __init__ : SayHelloWorkflow :=
  {| _complete := false |}.

(** Why an activity invocation did not return. *)
Inductive failure_cause : Type :=
| TimedOut
| ActivityErrored.

(** The exceptions of a routine: the one an awaited activity raises in
    the awaiting routine, and any other, by its message. *)
Inductive exn : Type :=
| ActivityFailure (cause : failure_cause)
| OtherException (msg : string).

(** ** Coroutines

    One constructor per capability a routine of the class calls.  An
    [await] is a constructor whose continuation is resumed by the host.
    Awaiting an activity either yields its result or raises at the
    [await]: [k] is what the routine does with the result, [h] what it
    does with the exception, which is to let it go ([Raise]) where no
    [try] encloses the [await]. *)
Inductive coro (A : Type) : Type :=
| Return (a : A)
| Raise (e : exn)
| LoggerInfo (msg : string) (k : coro A)
| UserIdGet (k : string -> coro A)
| UserIdSet (value : string) (k : coro A)
| SetComplete (b : bool) (k : coro A)
| WaitCondition (cond : SayHelloWorkflow -> bool) (k : coro A)
| ExecuteActivity (fn : activity_ref) (arg : string)
    (start_to_close_timeout : timedelta) (k : string -> coro A)
    (h : exn -> coro A).

Arguments Return {A} a.
Arguments Raise {A} e.
Arguments UserIdGet {A} k.
Arguments WaitCondition {A} cond k.
Arguments ExecuteActivity {A} fn arg start_to_close_timeout k h.

Fixpoint coro_bind {A B : Type} (c : coro A) (f : A -> coro B) : coro B :=
  match c with
  | Return a => f a
  | Raise e => Raise e
  | LoggerInfo msg k => LoggerInfo msg (coro_bind k f)
  | UserIdGet k => UserIdGet (fun u => coro_bind (k u) f)
  | UserIdSet v k => UserIdSet v (coro_bind k f)
  | SetComplete b k => SetComplete b (coro_bind k f)
  | WaitCondition cond k => WaitCondition cond (coro_bind k f)
  | ExecuteActivity fn arg t k h =>
      ExecuteActivity fn arg t (fun r => coro_bind (k r) f)
        (fun e => coro_bind (h e) f)
  end.

(** [try: c except e: handler e] *)
Fixpoint coro_catch {A : Type} (c : coro A) (handler : exn -> coro A)
    : coro A :=
  match c with
  | Return a => Return a
  | Raise e => handler e
  | LoggerInfo msg k => LoggerInfo msg (coro_catch k handler)
  | UserIdGet k => UserIdGet (fun u => coro_catch (k u) handler)
  | UserIdSet v k => UserIdSet v (coro_catch k handler)
  | SetComplete b k => SetComplete b (coro_catch k handler)
  | WaitCondition cond k => WaitCondition cond (coro_catch k handler)
  | ExecuteActivity fn arg t k h =>
      ExecuteActivity fn arg t (fun r => coro_catch (k r) handler)
        (fun e => coro_catch (h e) handler)
  end.

#[export] Instance Monad_coro : Monad coro :=
  {| ret := @Return; bind := @coro_bind |}.

#[export] Instance MonadExc_coro : MonadExc exn coro :=
  {| raise := @Raise; catch := @coro_catch |}.

Module workflow.
Module logger.
(** [workflow.logger.info(msg)] *)
Definition info (msg : string) : coro unit :=
  LoggerInfo msg (Return tt).
End logger.
(** [await workflow.wait_condition(fn)] *)
Definition wait_condition (fn : SayHelloWorkflow -> bool) : coro unit :=
  WaitCondition fn (Return tt).
(** [await workflow.execute_activity(fn, arg, start_to_close_timeout=t)] *)
Definition execute_activity (fn : activity_ref) (arg : string)
    (start_to_close_timeout : timedelta) : coro string :=
  ExecuteActivity fn arg start_to_close_timeout
    (fun r => Return r) (fun e => Raise e).
End workflow.

Module user_id.
(** Modelled from the spec: [shared.user_id] is not among the sources.
    The Identity Context is a string the current logical call can read,
    [user_id.get()], and overwrite; the host supplies the caller's identity
    when the call begins. *)
Definition get : coro string := UserIdGet (fun u => Return u).
(** Modelled from the spec: [user_id.set(value)] overwrites the Identity
    Context of the current logical call. *)
Definition set (value : string) : coro unit := UserIdSet value (Return tt).
End user_id.

(** [self._complete = b] *)
Definition set_complete (b : bool) : coro unit := SetComplete b (Return tt).

(** ** The two routines of the class *)

(** [SayHelloWorkflow.run(self, name)] *)
Definition run (name : string) : coro string :=
  u <- user_id.get ;;
  workflow.logger.info ("Workflow called by user " ++ u) ;;
  user_id.set "random" ;;
  workflow.wait_condition (fun self => _complete self) ;;
  activity_result <-
    workflow.execute_activity say_hello_activity name (timedelta_minutes 5) ;;
  u' <- user_id.get ;;
  workflow.logger.info ("Workflow called by user " ++ u') ;;
  ret activity_result.

(** [SayHelloWorkflow.signal_complete(self)] *)
Definition signal_complete : coro unit :=
  u <- user_id.get ;;
  workflow.logger.info ("Signal called by user " ++ u) ;;
  set_complete true.

(** ** The host runtime

    What the SDK and the scheduler do with a coroutine is not part of
    [workflows.py]; the machine below follows the contracts of the
    consumed capabilities. *)

(** What the Activity Invoker answers to one invocation. *)
Inductive activity_outcome : Type :=
| Returns (r : string)
| Fails (cause : failure_cause).

(** The effects a routine performs, in the order it performs them. *)
Inductive effect : Type :=
| Logged (msg : string)
| IdentitySet (value : string)
| CompleteSet (b : bool)
| Invoked (fn : activity_ref) (arg : string) (start_to_close_timeout : timedelta).

(** Where a routine stands between two scheduler steps.  [ctx] is the
    routine's own value of the Identity Context, which is scoped to the
    logical call: the call keeps it across its suspensions. *)
Inductive task (A : Type) : Type :=
| NotStarted
| Waiting (ctx : string) (cond : SayHelloWorkflow -> bool) (k : coro A)
| AwaitingActivity (ctx : string) (k : string -> coro A) (h : exn -> coro A)
| Returned (a : A)
| Raised (e : exn).

Arguments NotStarted {A}.
Arguments Raised {A} e.

(** Run a coroutine up to its next suspension point (a wait condition
    that is false, or an activity invocation) or to its end, by a return
    or by an exception nothing has caught. *)
Fixpoint advance {A : Type} (c : coro A) (self : SayHelloWorkflow)
    (ctx : string) : SayHelloWorkflow * list effect * task A :=
  match c with
  | Return a => (self, [], Returned a)
  | Raise e => (self, [], Raised e)
  | LoggerInfo msg k =>
      let '(s, h, t) := advance k self ctx in (s, Logged msg :: h, t)
  | UserIdGet k => advance (k ctx) self ctx
  | UserIdSet v k =>
      let '(s, h, t) := advance k self v in (s, IdentitySet v :: h, t)
  | SetComplete b k =>
      let '(s, h, t) := advance k {| _complete := b |} ctx in
      (s, CompleteSet b :: h, t)
  | WaitCondition cond k =>
      if cond self then advance k self ctx
      else (self, [], Waiting ctx cond k)
  | ExecuteActivity fn arg t k on_error =>
      (self, [Invoked fn arg t], AwaitingActivity ctx k on_error)
  end.

(** One workflow instance as the host holds it: the object, the [run]
    task and everything the instance's routines have done so far. *)
Record machine : Type := {
  self : SayHelloWorkflow;
  main : task string;
  history : list effect
}.

(** A freshly constructed instance whose [run] has not begun. *)
Definition init : machine :=
  {| self := __init__; main := NotStarted; history := [] |}.

Definition install (m : machine)
    (p : SayHelloWorkflow * list effect * task string) : machine :=
  let '(s, h, t) := p in
  {| self := s; main := t; history := history m ++ h |}.

(** After a routine has run, the scheduler re-evaluates the condition the
    [run] task waits on. *)
Definition check_conditions (m : machine) : machine :=
  match main m with
  | Waiting ctx cond k => install m (advance (WaitCondition cond k) (self m) ctx)
  | _ => m
  end.

(** The handler runs in a call of its own, with the signaller's identity. *)
Definition deliver_signal (caller : string) (m : machine) : machine :=
  let '(s, h, _) := advance signal_complete (self m) caller in
  {| self := s; main := main m; history := history m ++ h |}.

(** What the outside world does to an instance. *)
Inductive event : Type :=
| Start (name : string) (caller : string)
| Signal (caller : string)
| ActivityResolved (o : activity_outcome).

(** One logically atomic scheduler step. *)
Definition step (e : event) (m : machine) : machine :=
  match e with
  | Start name caller =>
      match main m with
      | NotStarted => install m (advance (run name) (self m) caller)
      | _ => m
      end
  | Signal caller => check_conditions (deliver_signal caller m)
  | ActivityResolved o =>
      match main m with
      | AwaitingActivity ctx k h =>
          match o with
          | Returns r => install m (advance (k r) (self m) ctx)
          | Fails cause =>
              install m (advance (h (ActivityFailure cause)) (self m) ctx)
          end
      | _ => m
      end
  end.

Definition exec (m : machine) (evs : list event) : machine :=
  fold_left (fun m e => step e m) evs m.

(** ** Observations *)

Inductive phase : Type :=
| CREATED
| WAITING
| RUNNING_ACTIVITY
| COMPLETED
| FAILED.

Definition phase_of (m : machine) : phase :=
  match main m with
  | NotStarted => CREATED
  | Waiting _ _ _ => WAITING
  | AwaitingActivity _ _ _ => RUNNING_ACTIVITY
  | Returned _ => COMPLETED
  | Raised _ => FAILED
  end.

(** The workflow's final result, once [run] has returned. *)
Definition result (m : machine) : option string :=
  match main m with
  | Returned r => Some r
  | _ => None
  end.

(** The exception [run] ended with, if it did. *)
Definition failure (m : machine) : option exn :=
  match main m with
  | Raised e => Some e
  | _ => None
  end.

(** The lines sent to the log sink, oldest first. *)
Fixpoint log_lines (h : list effect) : list string :=
  match h with
  | [] => []
  | Logged msg :: h' => msg :: log_lines h'
  | _ :: h' => log_lines h'
  end.

(** The calls made to the Activity Invoker, oldest first. *)
Fixpoint invocations (h : list effect)
    : list (activity_ref * string * timedelta) :=
  match h with
  | [] => []
  | Invoked fn arg t :: h' => (fn, arg, t) :: invocations h'
  | _ :: h' => invocations h'
  end.

(** The value of [self._complete] after the writes of [h], from [b]. *)
Fixpoint completed_after (b : bool) (h : list effect) : bool :=
  match h with
  | [] => b
  | CompleteSet b' :: h' => completed_after b' h'
  | _ :: h' => completed_after b h'
  end.

(** Every invocation in [h] is made while [self._complete], replayed
    from [b], is true. *)
Fixpoint guarded (b : bool) (h : list effect) : bool :=
  match h with
  | [] => true
  | CompleteSet b' :: h' => guarded b' h'
  | Invoked _ _ _ :: h' => b && guarded b h'
  | _ :: h' => guarded b h'
  end.

(** No write of [h] sets [self._complete] to [False]. *)
Definition never_cleared (h : list effect) : bool :=
  forallb (fun e => match e with CompleteSet false => false | _ => true end) h.

Definition is_signal (e : event) : bool :=
  match e with
  | Signal _ => true
  | _ => false
  end.

(** The history without what went to the log sink. *)
Fixpoint silent (h : list effect) : list effect :=
  match h with
  | [] => []
  | Logged _ :: h' => silent h'
  | e :: h' => e :: silent h'
  end.

(** ** The suspension points of [run] *)

(** What is left of [run] when the activity has returned. *)
Definition after_activity (activity_result : string) : coro string :=
  u' <- user_id.get ;;
  workflow.logger.info ("Workflow called by user " ++ u') ;;
  ret activity_result.

(** What is left of [run name] when the wait condition has held. *)
Definition after_wait (name : string) : coro string :=
  activity_result <-
    workflow.execute_activity say_hello_activity name (timedelta_minutes 5) ;;
  after_activity activity_result.

(** The one call [run name] makes to the Activity Invoker. *)
Definition the_call (name : string) : activity_ref * string * timedelta :=
  (say_hello_activity, name, timedelta_minutes 5).

(** The history agrees with the object and is guarded. *)
Definition history_ok (h : list effect) (s : SayHelloWorkflow)
    (calls : list (activity_ref * string * timedelta)) : Prop :=
  completed_after false h = _complete s /\
  guarded false h = true /\
  never_cleared h = true /\
  invocations h = calls.

(** The states an instance can be in; the index is the name [run] was
    started with, if it was. *)
Inductive inv : option string -> machine -> Prop :=
| inv_created s h :
    history_ok h s [] ->
    inv None {| self := s; main := NotStarted; history := h |}
| inv_waiting name h :
    history_ok h {| _complete := false |} [] ->
    inv (Some name)
      {| self := {| _complete := false |};
         main := Waiting "random" (fun self => _complete self) (after_wait name);
         history := h |}
| inv_running name h :
    history_ok h {| _complete := true |} [the_call name] ->
    inv (Some name)
      {| self := {| _complete := true |};
         main := AwaitingActivity "random" after_activity (@Raise string);
         history := h |}
| inv_returned name r h :
    history_ok h {| _complete := true |} [the_call name] ->
    inv (Some name)
      {| self := {| _complete := true |};
         main := Returned r;
         history := h |}
| inv_raised name cause h :
    history_ok h {| _complete := true |} [the_call name] ->
    inv (Some name)
      {| self := {| _complete := true |};
         main := Raised (ActivityFailure cause);
         history := h |}.

(** The name [run] is started with: the first start request counts. *)
Definition started (o : option string) (e : event) : option string :=
  match o, e with
  | None, Start name _ => Some name
  | _, _ => o
  end.

(** The input name of the instance after the events [evs]. *)
Definition input_name (evs : list event) : option string :=
  fold_left started evs None.

(** Two machines with the same object and the same [run] task, whose
    histories look the same through [view]. *)
Definition alike {V : Type} (view : list effect -> V) (m1 m2 : machine)
    : Prop :=
  self m1 = self m2 /\
  main m1 = main m2 /\
  view (history m1) = view (history m2).

(** Two machines that differ in their log lines only. *)
Definition same_but_log : machine -> machine -> Prop := alike silent.

(** Two machines that differ in log lines and field writes only. *)
Definition same_calls : machine -> machine -> Prop := alike invocations.

(** Two events that differ in the caller's identity only. *)
Inductive same_but_identity : event -> event -> Prop :=
| sbi_start name c1 c2 : same_but_identity (Start name c1) (Start name c2)
| sbi_signal c1 c2 : same_but_identity (Signal c1) (Signal c2)
| sbi_resolved o : same_but_identity (ActivityResolved o) (ActivityResolved o).

(** How far [run] has come: a phase with a higher rank is further on. *)
Definition phase_rank (p : phase) : nat :=
  match p with
  | CREATED => 0
  | WAITING => 1
  | RUNNING_ACTIVITY => 2
  | COMPLETED => 3
  | FAILED => 3
  end.

(** The identities the signals of [evs] were sent with, in order. *)
Fixpoint signallers (evs : list event) : list string :=
  match evs with
  | [] => []
  | Signal caller :: evs' => caller :: signallers evs'
  | _ :: evs' => signallers evs'
  end.

(** The line [signal_complete] writes for [caller]. *)
Definition signal_line (caller : string) : string :=
  "Signal called by user " ++ caller.

(** The log lines that [signal_complete] writes. *)
Definition is_signal_line (msg : string) : bool :=
  String.prefix "Signal called by user " msg.

(** ** Concrete runs *)

Example scenario_world :
  let m := exec init [Start "World" "alice"; Signal "bob";
                      ActivityResolved (Returns "Hello, World!")] in
  result m = Some "Hello, World!" /\
  invocations (history m) = [the_call "World"] /\
  log_lines (history m) =
    ["Workflow called by user alice"; "Signal called by user bob";
     "Workflow called by user random"].
Proof. repeat split. Qed.

Example scenario_signal_first :
  let m := exec init [Signal "bob"; Start "World" "alice"] in
  phase_of m = RUNNING_ACTIVITY /\
  history m =
    [Logged "Signal called by user bob"; CompleteSet true;
     Logged "Workflow called by user alice"; IdentitySet "random";
     Invoked say_hello_activity "World" (timedelta_minutes 5)].
Proof. repeat split. Qed.

(** A routine whose [await] a [try] encloses does not end with the
    activity's exception: its handler runs. *)
Example caught_failure_is_handled :
  let c := catch (workflow.execute_activity say_hello_activity "World"
                    (timedelta_minutes 5))
                 (fun _ => ret "fallback") in
  let m := install init (advance c __init__ "alice") in
  phase_of m = RUNNING_ACTIVITY /\
  result (step (ActivityResolved (Fails TimedOut)) m) = Some "fallback" /\
  failure (step (ActivityResolved (Fails TimedOut)) m) = None.
Proof. repeat split. Qed.

Example five_minutes : total_seconds (timedelta_minutes 5) = 300%Z.
Proof. reflexivity. Qed.

(** ** Histories *)

Lemma invocations_app h1 h2 :
  invocations (h1 ++ h2) = invocations h1 ++ invocations h2.
Proof.
  induction h1 as [|[] h1 IH]; simpl; auto.
  now rewrite IH.
Qed.

Lemma silent_app h1 h2 : silent (h1 ++ h2) = silent h1 ++ silent h2.
Proof.
  induction h1 as [|[] h1 IH]; simpl; auto; now rewrite IH.
Qed.

Lemma invocations_silent h : invocations (silent h) = invocations h.
Proof.
  induction h as [|[] h IH]; simpl; auto.
  now rewrite IH.
Qed.

Lemma completed_after_app h1 : forall b h2,
  completed_after b (h1 ++ h2) = completed_after (completed_after b h1) h2.
Proof.
  induction h1 as [|e h1 IH]; intros b h2; simpl; auto.
  destruct e; apply IH.
Qed.

Lemma guarded_app h1 : forall b h2,
  guarded b (h1 ++ h2) = guarded b h1 && guarded (completed_after b h1) h2.
Proof.
  induction h1 as [|e h1 IH]; intros b h2; simpl; auto.
  destruct e; rewrite ?IH, ?andb_assoc; reflexivity.
Qed.

Lemma completed_after_set h : forall b,
  completed_after b h = true -> b = true \/ In (CompleteSet true) h.
Proof.
  induction h as [|e h IH]; intros b Hb; simpl in *; auto.
  destruct e as [msg|v|b'|fn arg t];
    destruct (IH _ Hb) as [Heq|Hin]; subst; auto.
Qed.

Lemma guarded_split pre fn arg t post :
  guarded false (pre ++ Invoked fn arg t :: post) = true ->
  completed_after false pre = true.
Proof.
  rewrite guarded_app. simpl.
  intros H. apply andb_prop in H as [_ H].
  now apply andb_prop in H as [H _].
Qed.

Lemma invocations_split pre fn arg t post calls :
  invocations (pre ++ Invoked fn arg t :: post) = calls ->
  (length calls <= 1)%nat ->
  invocations pre = [] /\ invocations post = [].
Proof.
  rewrite invocations_app. simpl. intros <-.
  rewrite length_app. simpl.
  destruct (invocations pre), (invocations post); simpl; auto; lia.
Qed.

Lemma exec_app m evs1 evs2 : exec m (evs1 ++ evs2) = exec (exec m evs1) evs2.
Proof. apply fold_left_app. Qed.

Lemma exec_cons m e evs : exec m (e :: evs) = exec (step e m) evs.
Proof. reflexivity. Qed.

(** ** The routines, run to their suspension points *)

Lemma advance_run name s caller :
  advance (run name) s caller =
  if _complete s then
    (s, [Logged ("Workflow called by user " ++ caller); IdentitySet "random";
         Invoked say_hello_activity name (timedelta_minutes 5)],
     AwaitingActivity "random" after_activity (@Raise string))
  else
    (s, [Logged ("Workflow called by user " ++ caller); IdentitySet "random"],
     Waiting "random" (fun self => _complete self) (after_wait name)).
Proof. destruct s as [[|]]; reflexivity. Qed.

Lemma advance_after_wait name s ctx :
  advance (after_wait name) s ctx =
  (s, [Invoked say_hello_activity name (timedelta_minutes 5)],
   AwaitingActivity ctx after_activity (@Raise string)).
Proof. reflexivity. Qed.

Lemma advance_after_activity r s ctx :
  advance (after_activity r) s ctx =
  (s, [Logged ("Workflow called by user " ++ ctx)], Returned r).
Proof. reflexivity. Qed.

Lemma advance_signal_complete s caller :
  advance signal_complete s caller =
  ({| _complete := true |},
   [Logged ("Signal called by user " ++ caller); CompleteSet true],
   Returned tt).
Proof. reflexivity. Qed.

Lemma deliver_signal_eq caller m :
  deliver_signal caller m =
  {| self := {| _complete := true |};
     main := main m;
     history := history m ++
       [Logged ("Signal called by user " ++ caller); CompleteSet true] |}.
Proof. reflexivity. Qed.

(** ** The invariant *)

Ltac solve_history_ok :=
  match goal with
  | H : history_ok _ _ _ |- history_ok _ _ _ =>
      destruct H as (Hc & Hg & Hn & Hi); simpl in Hc;
      unfold history_ok, never_cleared in *;
      cbn [history self main];
      repeat first [rewrite completed_after_app | rewrite guarded_app
                   | rewrite invocations_app | rewrite forallb_app];
      rewrite ?Hc, ?Hg, ?Hn, ?Hi;
      simpl; auto
  end.

Lemma init_inv : inv None init.
Proof. constructor. repeat split. Qed.

Ltac step_cases H e :=
  destruct H as [s h H|name h H|name h H|name r h H|name cause h H];
  destruct e as [name' caller|caller|[r'|cause']];
  unfold step; rewrite ?deliver_signal_eq;
  unfold check_conditions, started;
  cbn [main self history install];
  rewrite ?advance_run, ?advance_after_activity;
  try match goal with
      | s : SayHelloWorkflow |- _ => destruct s as [[|]]
      end;
  cbn [_complete install history main self advance].

Lemma step_inv o m e : inv o m -> inv (started o e) (step e m).
Proof.
  intros H; step_cases H e; try (constructor; exact H);
    constructor; solve_history_ok.
Qed.

Lemma exec_inv evs : forall o m,
  inv o m -> inv (fold_left started evs o) (exec m evs).
Proof.
  induction evs as [|e evs IH]; intros o m H; simpl; auto.
  apply IH, step_inv, H.
Qed.

Lemma started_some evs : forall name,
  fold_left started evs (Some name) = Some name.
Proof. induction evs as [|[] evs IH]; intros; simpl; auto. Qed.

Lemma reachable_inv evs : exists o, inv o (exec init evs).
Proof. eexists. apply exec_inv, init_inv. Qed.

Lemma started_inv name caller evs :
  inv (Some name) (exec init (Start name caller :: evs)).
Proof.
  rewrite <- (started_some evs name).
  apply (exec_inv evs (o := started None (Start name caller))).
  apply step_inv, init_inv.
Qed.

Lemma inv_history_ok o m :
  inv o m -> exists calls,
    history_ok (history m) (self m) calls /\ (length calls <= 1)%nat.
Proof.
  intros [s h H|name h H|name h H|name r h H|name cause h H]; simpl;
    eexists; (split; [exact H|simpl; lia]).
Qed.

(** ** Terminal states *)

Lemma returned_step r e m : main m = Returned r -> main (step e m) = Returned r.
Proof.
  intros H. destruct e as [name caller|caller|o]; unfold step.
  - now rewrite H.
  - rewrite deliver_signal_eq. unfold check_conditions; simpl. now rewrite H.
  - now rewrite H.
Qed.

Lemma raised_step x e m :
  main m = Raised x ->
  main (step e m) = Raised x /\
  invocations (history (step e m)) = invocations (history m).
Proof.
  intros H. destruct e as [name caller|caller|o]; unfold step.
  - now rewrite H.
  - rewrite deliver_signal_eq. unfold check_conditions; simpl. rewrite H.
    simpl. rewrite invocations_app. simpl. now rewrite app_nil_r.
  - now rewrite H.
Qed.

Lemma returned_exec r evs : forall m,
  main m = Returned r -> main (exec m evs) = Returned r.
Proof.
  induction evs as [|e evs IH]; intros m H; simpl; auto.
  apply IH, returned_step, H.
Qed.

Lemma raised_exec x evs : forall m,
  main m = Raised x ->
  main (exec m evs) = Raised x /\
  invocations (history (exec m evs)) = invocations (history m).
Proof.
  induction evs as [|e evs IH]; intros m H; simpl; auto.
  destruct (raised_step e m H) as [H1 H2].
  destruct (IH _ H1) as [H3 H4]. split; congruence.
Qed.

(** ** What the invariant says about a state *)

Lemma inv_input_name evs : inv (input_name evs) (exec init evs).
Proof. apply exec_inv, init_inv. Qed.

Lemma inv_running_calls name m :
  inv (Some name) m -> _complete (self m) = true ->
  invocations (history m) = [the_call name].
Proof.
  intros H; inversion H; subst; simpl; intros Hc;
    try discriminate;
    match goal with H : history_ok _ _ _ |- _ => apply H end.
Qed.

Lemma inv_waiting_iff o m :
  inv o m -> o <> None ->
  (phase_of m = WAITING <-> _complete (self m) = false).
Proof.
  intros H Ho; inversion H; subst; simpl; try tauto;
    split; discriminate.
Qed.

Lemma inv_phase_running o m :
  inv o m -> phase_of m = RUNNING_ACTIVITY ->
  exists name,
    o = Some name /\
    main m = AwaitingActivity "random" after_activity (@Raise string) /\
    invocations (history m) = [the_call name].
Proof.
  intros H; inversion H; subst; simpl; try discriminate.
  intros _. exists name. repeat split.
  match goal with H : history_ok _ _ _ |- _ => apply H end.
Qed.

Lemma step_self o m e :
  inv o m ->
  self (step e m) = if is_signal e then {| _complete := true |} else self m.
Proof. intros H; step_cases H e; reflexivity. Qed.

Lemma step_complete o m e :
  inv o m -> _complete (self m) = true -> _complete (self (step e m)) = true.
Proof.
  intros H Hc. rewrite (step_self e H). now destruct (is_signal e).
Qed.

Lemma exec_complete evs : forall o m,
  inv o m -> _complete (self m) = true -> _complete (self (exec m evs)) = true.
Proof.
  induction evs as [|e evs IH]; intros o m H Hc; simpl; auto.
  apply (IH (started o e)); [apply step_inv, H|].
  apply (step_complete e H Hc).
Qed.

Lemma exec_signalled evs : forall o m,
  inv o m -> existsb is_signal evs = true ->
  _complete (self (exec m evs)) = true.
Proof.
  induction evs as [|e evs IH]; intros o m H Hs; simpl in *; [discriminate|].
  destruct (is_signal e) eqn:He; simpl in Hs.
  - apply (exec_complete evs (step_inv e H)).
    rewrite (step_self e H), He. reflexivity.
  - apply (IH (started o e)); [apply step_inv, H|exact Hs].
Qed.

Lemma waiting_ignores name h e :
  is_signal e = false ->
  let m := {| self := {| _complete := false |};
              main := Waiting "random" (fun self => _complete self)
                        (after_wait name);
              history := h |} in
  step e m = m.
Proof. destruct e as [n c|c|o]; intros He; try discriminate; reflexivity. Qed.

Lemma filter_signal_exists evs :
  length (filter is_signal evs) = 1%nat -> existsb is_signal evs = true.
Proof.
  induction evs as [|e evs IH]; simpl; [discriminate|].
  destruct (is_signal e); simpl; auto.
Qed.

Lemma waiting_exec name h evs :
  existsb is_signal evs = false ->
  let m := {| self := {| _complete := false |};
              main := Waiting "random" (fun self => _complete self)
                        (after_wait name);
              history := h |} in
  exec m evs = m.
Proof.
  induction evs as [|e evs IH]; intros Hs; [reflexivity|].
  simpl in Hs. apply orb_false_elim in Hs as [He Hs].
  intros m. rewrite exec_cons. unfold m.
  rewrite waiting_ignores by exact He. apply IH, Hs.
Qed.

Lemma start_init name caller :
  step (Start name caller) init =
  {| self := {| _complete := false |};
     main := Waiting "random" (fun self => _complete self) (after_wait name);
     history := [Logged ("Workflow called by user " ++ caller);
                 IdentitySet "random"] |}.
Proof. reflexivity. Qed.

(** ** Machines that differ in what a view of the history hides *)

Section Alike.

Variable V : Type.
Variable view : list effect -> V.

(** The view is computed from left to right and does not see the log. *)
Hypothesis view_app : forall h1 h2 h,
  view h1 = view h2 -> view (h1 ++ h) = view (h2 ++ h).
Hypothesis view_logged : forall h msg, view (h ++ [Logged msg]) = view h.

Lemma alike_refl m : alike view m m.
Proof. repeat split. Qed.

Lemma alike_trans m1 m2 m3 :
  alike view m1 m2 -> alike view m2 m3 -> alike view m1 m3.
Proof. intros (?&?&?) (?&?&?); repeat split; congruence. Qed.

Lemma view_logged_app h1 h2 msg1 msg2 h :
  view h1 = view h2 ->
  view (h1 ++ Logged msg1 :: h) = view (h2 ++ Logged msg2 :: h).
Proof.
  intros H.
  change (Logged msg1 :: h) with ([Logged msg1] ++ h).
  change (Logged msg2 :: h) with ([Logged msg2] ++ h).
  rewrite !app_assoc. apply view_app. now rewrite !view_logged.
Qed.

Lemma install_alike m1 m2 p :
  view (history m1) = view (history m2) ->
  alike view (install m1 p) (install m2 p).
Proof.
  destruct p as [[s h] t]. intros H. repeat split; simpl.
  now apply view_app.
Qed.

Lemma check_conditions_alike m1 m2 :
  alike view m1 m2 ->
  alike view (check_conditions m1) (check_conditions m2).
Proof.
  intros (Hs & Hm & Hh). unfold check_conditions. rewrite <- Hm, <- Hs.
  destruct (main m1) eqn:E; try (repeat split; congruence).
  now apply install_alike.
Qed.

Lemma deliver_signal_alike c1 c2 m1 m2 :
  alike view m1 m2 ->
  alike view (deliver_signal c1 m1) (deliver_signal c2 m2).
Proof.
  intros (Hs & Hm & Hh). rewrite !deliver_signal_eq.
  repeat split; simpl; auto.
  now apply view_logged_app.
Qed.

Lemma step_alike e1 e2 m1 m2 :
  same_but_identity e1 e2 -> alike view m1 m2 ->
  alike view (step e1 m1) (step e2 m2).
Proof.
  intros He H. destruct He as [name c1 c2|c1 c2|o]; unfold step.
  - destruct H as (Hs & Hm & Hh). rewrite <- Hm, <- Hs.
    destruct (main m1) eqn:E; try (repeat split; congruence).
    rewrite !advance_run.
    destruct (_complete (self m1)); repeat split; simpl; auto;
      now apply view_logged_app.
  - now apply check_conditions_alike, deliver_signal_alike.
  - destruct H as (Hs & Hm & Hh). rewrite <- Hm, <- Hs.
    destruct (main m1) eqn:E; try (repeat split; congruence).
    destruct o as [r|cause]; now apply install_alike.
Qed.

Lemma exec_alike evs1 evs2 :
  Forall2 same_but_identity evs1 evs2 ->
  forall m1 m2, alike view m1 m2 ->
  alike view (exec m1 evs1) (exec m2 evs2).
Proof.
  induction 1 as [|e1 e2 evs1 evs2 He _ IH]; intros m1 m2 H; simpl; auto.
  apply IH, step_alike; assumption.
Qed.

End Alike.

Lemma same_but_identity_refl evs : Forall2 same_but_identity evs evs.
Proof. induction evs as [|[] evs IH]; constructor; auto; constructor. Qed.

Lemma silent_view_app h1 h2 h :
  silent h1 = silent h2 -> silent (h1 ++ h) = silent (h2 ++ h).
Proof. intros H. now rewrite !silent_app, H. Qed.

Lemma silent_view_logged h msg : silent (h ++ [Logged msg]) = silent h.
Proof. rewrite silent_app. simpl. apply app_nil_r. Qed.

Lemma invocations_view_app h1 h2 h :
  invocations h1 = invocations h2 ->
  invocations (h1 ++ h) = invocations (h2 ++ h).
Proof. intros H. now rewrite !invocations_app, H. Qed.

Lemma invocations_view_logged h msg :
  invocations (h ++ [Logged msg]) = invocations h.
Proof. rewrite invocations_app. simpl. apply app_nil_r. Qed.

Lemma exec_same_but_log evs1 evs2 m1 m2 :
  Forall2 same_but_identity evs1 evs2 ->
  same_but_log m1 m2 -> same_but_log (exec m1 evs1) (exec m2 evs2).
Proof.
  intros He. apply exec_alike;
    auto using silent_view_app, silent_view_logged.
Qed.

Lemma exec_same_calls evs m1 m2 :
  same_calls m1 m2 -> same_calls (exec m1 evs) (exec m2 evs).
Proof.
  apply exec_alike;
    auto using invocations_view_app, invocations_view_logged,
      same_but_identity_refl.
Qed.

Lemma same_calls_observe m1 m2 :
  same_calls m1 m2 ->
  self m1 = self m2 /\
  result m1 = result m2 /\ failure m1 = failure m2 /\
  phase_of m1 = phase_of m2 /\
  invocations (history m1) = invocations (history m2).
Proof.
  intros (Hs & Hm & Hh). unfold result, failure, phase_of.
  rewrite Hm. repeat split; assumption.
Qed.

Lemma same_but_log_same_calls m1 m2 : same_but_log m1 m2 -> same_calls m1 m2.
Proof.
  intros (Hs & Hm & Hh). repeat split; auto.
  now rewrite <- (invocations_silent (history m1)), Hh, invocations_silent.
Qed.

Lemma repeated_signal o m c :
  inv o m -> _complete (self m) = true ->
  same_calls (step (Signal c) m) m.
Proof.
  intros H Hc. pose (e := Signal c). change (Signal c) with e.
  assert (He : e = Signal c) by reflexivity. clearbody e.
  step_cases H e; try discriminate; simpl in Hc; try discriminate;
    repeat split; simpl; rewrite invocations_app; simpl;
    now rewrite app_nil_r.
Qed.

Lemma repeated_signals extra : forall o m,
  forallb is_signal extra = true ->
  inv o m -> _complete (self m) = true ->
  same_calls (exec m extra) m.
Proof.
  induction extra as [|e extra IH]; intros o m Hx H Hc; simpl in *.
  - apply alike_refl.
  - apply andb_prop in Hx as [He Hx].
    destruct e as [n c|c|r]; try discriminate.
    apply alike_trans with (step (Signal c) m).
    + apply (IH (started o (Signal c))); auto using step_inv.
      now apply (step_complete (Signal c) H).
    + apply (repeated_signal c H Hc).
Qed.

Lemma inv_started_calls o m :
  inv o m -> _complete (self m) = true -> phase_of m <> CREATED ->
  length (invocations (history m)) = 1%nat.
Proof.
  intros [s h H|name h H|name h H|name r h H|name cause h H]; simpl;
    intros Hc Hp; try discriminate; try (now elim Hp);
    destruct H as (_ & _ & _ & ->); reflexivity.
Qed.

Lemma exec_flag evs : forall o m,
  inv o m ->
  _complete (self (exec m evs)) = _complete (self m) || existsb is_signal evs.
Proof.
  induction evs as [|e evs IH]; intros o m H; simpl.
  - now rewrite orb_false_r.
  - rewrite (IH _ _ (step_inv e H)), (step_self e H).
    destruct (is_signal e); simpl; [now rewrite orb_true_r|reflexivity].
Qed.

Lemma init_flag evs :
  _complete (self (exec init evs)) = existsb is_signal evs.
Proof. now rewrite (exec_flag evs init_inv). Qed.

Lemma inv_calls o m :
  inv o m ->
  invocations (history m) =
    match o with
    | Some name => if _complete (self m) then [the_call name] else []
    | None => []
    end /\
  (phase_of m = CREATED <-> o = None).
Proof.
  intros [s h H|name h H|name h H|name r h H|name cause h H]; simpl;
    (split; [apply H|split; intros; (reflexivity || discriminate)]).
Qed.

(** ** The claims *)

(** C1: when [run], started with [name], is suspended on the activity, the
    one invocation it has made carries [name]; if the Activity Invoker
    answers that invocation with the string [R], the workflow's final
    result is [R], whatever happens afterwards. *)
Theorem run_returns_activity_result evs name R post :
  input_name evs = Some name ->
  phase_of (exec init evs) = RUNNING_ACTIVITY ->
  invocations (history (exec init evs)) = [the_call name] /\
  result (exec init (evs ++ ActivityResolved (Returns R) :: post)) = Some R.
Proof.
  intros Hn Hp.
  destruct (inv_phase_running (inv_input_name evs) Hp) as (n & Ho & Hm & Hi).
  rewrite Hn in Ho. injection Ho as <-. split; [exact Hi|].
  rewrite exec_app, exec_cons. unfold result.
  rewrite (returned_exec (r := R)); [reflexivity|].
  unfold step. rewrite Hm. reflexivity.
Qed.

Lemma run_returns_activity_result_witness :
  input_name [Start "Alice" "alice"; Signal "bob"] = Some "Alice" /\
  phase_of (exec init [Start "Alice" "alice"; Signal "bob"])
    = RUNNING_ACTIVITY /\
  result (exec init ([Start "Alice" "alice"; Signal "bob"] ++
                     ActivityResolved (Returns "Hello, Alice!") ::
                     [Signal "carol"]))
    = Some "Hello, Alice!".
Proof.
  split; [reflexivity|]. split; [reflexivity|].
  apply (run_returns_activity_result
           [Start "Alice" "alice"; Signal "bob"] "Hello, Alice!"
           [Signal "carol"] (name := "Alice")); reflexivity.
Defined.

(** C2: started with [name] and signalled exactly once, the instance calls
    the Activity Invoker exactly once, with [name] and a start-to-close
    timeout of five minutes (300 seconds). *)
Theorem one_signal_one_invocation name caller evs :
  length (filter is_signal evs) = 1%nat ->
  invocations (history (exec init (Start name caller :: evs)))
    = [(say_hello_activity, name, timedelta_minutes 5)] /\
  total_seconds (timedelta_minutes 5) = 300%Z.
Proof.
  intros H. split; [|reflexivity].
  apply inv_running_calls; [apply started_inv|].
  rewrite exec_cons.
  apply (exec_signalled evs (step_inv (Start name caller) init_inv)).
  apply filter_signal_exists, H.
Qed.

Lemma one_signal_one_invocation_witness :
  length (filter is_signal
            [Signal "bob"; ActivityResolved (Returns "Hello, World!")])
    = 1%nat /\
  invocations (history (exec init
      (Start "World" "alice" ::
       [Signal "bob"; ActivityResolved (Returns "Hello, World!")])))
    = [(say_hello_activity, "World", timedelta_minutes 5)].
Proof.
  split; [reflexivity|].
  apply (one_signal_one_invocation "World" "alice"
           [Signal "bob"; ActivityResolved (Returns "Hello, World!")]).
  reflexivity.
Defined.

(** C3: in every history the instance can reach, the activity is invoked
    at most once; an invocation is preceded by a write of [True] to
    [self._complete], the flag is true when it is made, and a signal has
    been delivered by then. *)
Theorem invoked_at_most_once_after_complete evs :
  (length (invocations (history (exec init evs))) <= 1)%nat /\
  (invocations (history (exec init evs)) <> [] ->
   existsb is_signal evs = true) /\
  forall pre fn arg t post,
    history (exec init evs) = pre ++ Invoked fn arg t :: post ->
    completed_after false pre = true /\
    In (CompleteSet true) pre /\
    invocations pre = [] /\ invocations post = [].
Proof.
  destruct (inv_history_ok (inv_input_name evs))
    as (calls & (Hc & Hg & Hn & Hi) & Hlen).
  split; [now rewrite Hi|]. split.
  - intros Hne. destruct (existsb is_signal evs) eqn:Hs; [reflexivity|].
    exfalso. apply Hne. clear - Hs.
    assert (Hgen : forall o m, inv o m -> _complete (self m) = false ->
              invocations (history m) = [] ->
              invocations (history (exec m evs)) = []).
    { induction evs as [|e evs IH]; intros o m H Hf Hi; simpl in *; auto.
      apply orb_false_elim in Hs as [He Hs].
      apply (IH Hs (started o e)); [apply step_inv, H| |].
      - rewrite (step_self e H), He. exact Hf.
      - clear IH Hs. step_cases H e; try discriminate; simpl in *;
          rewrite ?app_nil_r; auto;
          rewrite invocations_app, Hi; reflexivity. }
    apply (Hgen None init init_inv); reflexivity.
  - intros pre fn arg t post Heq. rewrite Heq in *.
    pose proof (guarded_split _ _ _ _ _ Hg) as Hpre.
    split; [exact Hpre|]. split.
    + destruct (completed_after_set _ _ Hpre) as [Hf|Hin];
        [discriminate|exact Hin].
    + apply (invocations_split _ _ _ _ _ Hi Hlen).
Qed.

Lemma invoked_at_most_once_after_complete_witness :
  history (exec init [Start "World" "alice"; Signal "bob"]) =
    [Logged "Workflow called by user alice"; IdentitySet "random";
     Logged "Signal called by user bob"; CompleteSet true] ++
    Invoked say_hello_activity "World" (timedelta_minutes 5) :: [] /\
  In (CompleteSet true)
    [Logged "Workflow called by user alice"; IdentitySet "random";
     Logged "Signal called by user bob"; CompleteSet true].
Proof.
  split; [reflexivity|].
  apply (proj2 (proj2 (invoked_at_most_once_after_complete
                         [Start "World" "alice"; Signal "bob"]))
           _ say_hello_activity "World" (timedelta_minutes 5) []).
  reflexivity.
Defined.

(** C4: started with [name] and never signalled, the instance stays
    suspended on the wait condition after any further events, the
    Activity Invoker is never called and no result is produced. *)
Theorem unsignalled_waits_forever name caller evs :
  existsb is_signal evs = false ->
  phase_of (exec init (Start name caller :: evs)) = WAITING /\
  invocations (history (exec init (Start name caller :: evs))) = [] /\
  result (exec init (Start name caller :: evs)) = None /\
  exec init (Start name caller :: evs) = step (Start name caller) init.
Proof.
  intros Hs. rewrite exec_cons, start_init, (waiting_exec _ _ _ Hs).
  repeat split.
Qed.

Lemma unsignalled_waits_forever_witness :
  existsb is_signal [ActivityResolved (Returns "x"); Start "Eve" "eve"]
    = false /\
  phase_of (exec init (Start "World" "alice" ::
              [ActivityResolved (Returns "x"); Start "Eve" "eve"]))
    = WAITING.
Proof.
  split; [reflexivity|].
  apply (unsignalled_waits_forever "World" "alice"
           [ActivityResolved (Returns "x"); Start "Eve" "eve"]).
  reflexivity.
Defined.

(** C5: once a signal has been delivered, delivering further signals at
    any later point changes neither [self._complete], which is true, nor
    the calls made to the Activity Invoker (at most one, exactly one once
    [run] has started), nor the phase, the result or the failure of the
    instance.  What each further delivery adds is its own log line. *)
Theorem repeated_signals_unobservable pre first mid extra post :
  forallb is_signal extra = true ->
  let m1 := exec init (pre ++ Signal first :: mid ++ post) in
  let m2 := exec init (pre ++ Signal first :: mid ++ extra ++ post) in
  _complete (self m2) = true /\
  self m2 = self m1 /\
  invocations (history m2) = invocations (history m1) /\
  (length (invocations (history m2)) <= 1)%nat /\
  (phase_of m2 <> CREATED -> length (invocations (history m2)) = 1%nat) /\
  phase_of m2 = phase_of m1 /\
  result m2 = result m1 /\
  failure m2 = failure m1.
Proof.
  intros Hx m1 m2.
  set (evs := pre ++ Signal first :: mid).
  assert (Hinv : inv (input_name evs) (exec init evs))
    by apply inv_input_name.
  assert (Hc : _complete (self (exec init evs)) = true).
  { unfold evs. rewrite exec_app.
    apply (exec_signalled (Signal first :: mid)
             (inv_input_name pre)). reflexivity. }
  assert (Hsim : same_calls m2 m1).
  { unfold m1, m2.
    replace (pre ++ Signal first :: mid ++ extra ++ post)
      with (evs ++ extra ++ post)
      by (unfold evs; now rewrite <- app_assoc).
    replace (pre ++ Signal first :: mid ++ post) with (evs ++ post)
      by (unfold evs; now rewrite <- app_assoc).
    rewrite !exec_app. apply exec_same_calls.
    apply (repeated_signals extra Hx Hinv Hc). }
  destruct (same_calls_observe Hsim) as (Hs & Hr & Hf & Hp & Hi).
  assert (Hinv1 : inv (input_name (evs ++ post)) m1).
  { unfold m1. replace (pre ++ Signal first :: mid ++ post) with (evs ++ post)
      by (unfold evs; now rewrite <- app_assoc).
    apply inv_input_name. }
  assert (Hc1 : _complete (self m1) = true).
  { unfold m1. replace (pre ++ Signal first :: mid ++ post) with (evs ++ post)
      by (unfold evs; now rewrite <- app_assoc).
    rewrite exec_app. apply (exec_complete post Hinv Hc). }
  repeat split; auto.
  - now rewrite Hs.
  - rewrite Hi. destruct (inv_history_ok Hinv1) as (calls & (_&_&_&E) & Hl).
    now rewrite E.
  - rewrite Hp, Hi. now apply (inv_started_calls Hinv1).
Qed.

Lemma repeated_signals_unobservable_witness :
  forallb is_signal [Signal "carol"; Signal "dave"] = true /\
  result (exec init ([Start "World" "alice"] ++ Signal "bob" :: [] ++
                     [Signal "carol"; Signal "dave"] ++
                     [ActivityResolved (Returns "Hello, World!")]))
  = result (exec init ([Start "World" "alice"] ++ Signal "bob" :: [] ++
                       [ActivityResolved (Returns "Hello, World!")])).
Proof.
  split; [reflexivity|].
  apply (repeated_signals_unobservable
           [Start "World" "alice"] "bob" []
           [Signal "carol"; Signal "dave"]
           [ActivityResolved (Returns "Hello, World!")]).
  reflexivity.
Defined.

(** C6: when the awaited activity times out or fails, the exception is
    raised at the [await] of [run], which no [try] encloses: [run] ends
    with the invoker's [ActivityFailure] as it came, the instance is
    failed and stays so, it has no result, the failing step performs no
    effect of its own (the second log line is not written) and the
    activity is not invoked again. *)
Theorem activity_failure_propagates evs cause post :
  phase_of (exec init evs) = RUNNING_ACTIVITY ->
  let m := exec init (evs ++ ActivityResolved (Fails cause) :: post) in
  failure m = Some (ActivityFailure cause) /\
  phase_of m = FAILED /\
  result m = None /\
  history (step (ActivityResolved (Fails cause)) (exec init evs))
    = history (exec init evs) /\
  invocations (history m) = invocations (history (exec init evs)).
Proof.
  intros Hp m.
  destruct (inv_phase_running (inv_input_name evs) Hp) as (n & _ & Hm & _).
  assert (Hstep : step (ActivityResolved (Fails cause)) (exec init evs)
                  = {| self := self (exec init evs);
                       main := Raised (ActivityFailure cause);
                       history := history (exec init evs) |}).
  { unfold step. rewrite Hm. unfold install. cbn [advance].
    now rewrite app_nil_r. }
  destruct (@raised_exec (ActivityFailure cause) post
              (step (ActivityResolved (Fails cause)) (exec init evs)))
    as [Hmain Hcalls]; [now rewrite Hstep|].
  unfold m. rewrite exec_app, exec_cons.
  unfold failure, phase_of, result. rewrite Hmain, Hcalls, Hstep.
  repeat split.
Qed.

Lemma activity_failure_propagates_witness :
  phase_of (exec init [Start "World" "alice"; Signal "bob"])
    = RUNNING_ACTIVITY /\
  failure (exec init ([Start "World" "alice"; Signal "bob"] ++
                      ActivityResolved (Fails TimedOut) ::
                      [ActivityResolved (Returns "late"); Signal "carol"]))
    = Some (ActivityFailure TimedOut).
Proof.
  split; [reflexivity|].
  apply (activity_failure_propagates
           [Start "World" "alice"; Signal "bob"] TimedOut
           [ActivityResolved (Returns "late"); Signal "carol"]).
  reflexivity.
Defined.

(** C7, as amended: the instance is constructed with [_complete = False]
    and the flag is true at a start exactly when a signal was handled
    before it.  At every start [run] logs the caller's identity and then
    sets the Identity Context to ["random"].  If no signal was handled
    before the start, it then suspends on the wait condition
    [self._complete], with all of the rest of [run] still to do; if one
    was, it does not suspend there: it invokes the activity in the same
    step and suspends on the activity.  From the start on, [run] is
    suspended on the wait condition exactly as long as [self._complete]
    is false. *)
Theorem start_runs_to_first_suspension evs name caller :
  input_name evs = None ->
  _complete (self init) = false /\
  _complete (self (exec init evs)) = existsb is_signal evs /\
  self (step (Start name caller) (exec init evs)) = self (exec init evs) /\
  (existsb is_signal evs = false ->
   history (step (Start name caller) (exec init evs)) =
     history (exec init evs) ++
     [Logged ("Workflow called by user " ++ caller); IdentitySet "random"] /\
   main (step (Start name caller) (exec init evs)) =
     Waiting "random" (fun self => _complete self) (after_wait name)) /\
  (existsb is_signal evs = true ->
   history (step (Start name caller) (exec init evs)) =
     history (exec init evs) ++
     [Logged ("Workflow called by user " ++ caller); IdentitySet "random";
      Invoked say_hello_activity name (timedelta_minutes 5)] /\
   main (step (Start name caller) (exec init evs)) =
     AwaitingActivity "random" after_activity (@Raise string)) /\
  (forall evs',
     phase_of (exec init (evs ++ Start name caller :: evs')) = WAITING <->
     _complete (self (exec init (evs ++ Start name caller :: evs'))) = false).
Proof.
  intros Hn. split; [reflexivity|].
  split; [apply init_flag|].
  rewrite <- init_flag.
  destruct (proj2 (inv_calls (inv_input_name evs))) as [_ Hc].
  specialize (Hc Hn). unfold phase_of in Hc.
  unfold step at 1 2 3 4 5.
  destruct (main (exec init evs)) eqn:Hm; try discriminate.
  rewrite advance_run.
  repeat split.
  - now destruct (_complete (self (exec init evs))).
  - rewrite H. reflexivity.
  - rewrite H. reflexivity.
  - rewrite H. reflexivity.
  - rewrite H. reflexivity.
  - apply inv_waiting_iff
      with (o := input_name (evs ++ Start name caller :: evs'));
      [apply inv_input_name|].
    unfold input_name. rewrite fold_left_app. fold (input_name evs).
    rewrite Hn. simpl. rewrite started_some. discriminate.
  - apply inv_waiting_iff
      with (o := input_name (evs ++ Start name caller :: evs'));
      [apply inv_input_name|].
    unfold input_name. rewrite fold_left_app. fold (input_name evs).
    rewrite Hn. simpl. rewrite started_some. discriminate.
Qed.

Lemma start_runs_to_first_suspension_witness :
  input_name [Signal "bob"] = None /\
  existsb is_signal [Signal "bob"] = true /\
  history (step (Start "World" "alice") (exec init [Signal "bob"])) =
    history (exec init [Signal "bob"]) ++
    [Logged ("Workflow called by user " ++ "alice"); IdentitySet "random";
     Invoked say_hello_activity "World" (timedelta_minutes 5)] /\
  main (step (Start "World" "alice") (exec init [Signal "bob"])) =
    AwaitingActivity "random" after_activity (@Raise string).
Proof.
  split; [reflexivity|]. split; [reflexivity|].
  apply (proj1 (proj2 (proj2 (proj2 (proj2
           (start_runs_to_first_suspension [Signal "bob"] "World" "alice"
              eq_refl)))))).
  reflexivity.
Defined.

(** C7, as stated, fails for a start that follows a handled signal: [run]
    has not begun, the instance it begins on has [_complete = True], and
    before its first suspension [run] has also invoked the activity; it
    is suspended on the activity, not on the wait condition. *)
Lemma start_after_signal_does_not_wait :
  main (exec init [Signal "bob"]) = NotStarted /\
  _complete (self (exec init [Signal "bob"])) = true /\
  history (step (Start "World" "alice") (exec init [Signal "bob"])) =
    [Logged "Signal called by user bob"; CompleteSet true;
     Logged "Workflow called by user alice"; IdentitySet "random";
     Invoked say_hello_activity "World" (timedelta_minutes 5)] /\
  phase_of (step (Start "World" "alice") (exec init [Signal "bob"]))
    = RUNNING_ACTIVITY /\
  ~ (forall evs name caller,
       input_name evs = None ->
       _complete (self (exec init evs)) = false /\
       phase_of (step (Start name caller) (exec init evs)) = WAITING).
Proof.
  repeat split. intros H.
  destruct (H [Signal "bob"] "World" "alice" eq_refl) as [H1 _].
  discriminate H1.
Qed.

(** C8: the handler [signal_complete] takes nothing but the instance and
    yields no value; run on any instance for any caller it performs two
    effects, the log line with the caller's identity and then the write
    [self._complete = True], without suspending.  A delivery appends just
    these two effects to the history and leaves the [run] task to the
    scheduler. *)
Theorem signal_logs_then_sets_complete s caller m :
  advance signal_complete s caller =
    ({| _complete := true |},
     [Logged ("Signal called by user " ++ caller); CompleteSet true],
     Returned tt) /\
  self (deliver_signal caller m) = {| _complete := true |} /\
  main (deliver_signal caller m) = main m /\
  history (deliver_signal caller m) =
    history m ++
    [Logged ("Signal called by user " ++ caller); CompleteSet true].
Proof. repeat split. Qed.

(** C9: once [self._complete] is true it is true after every further
    event, and no history the instance can reach holds a write of
    [False] to it. *)
Theorem complete_is_monotone evs evs' :
  never_cleared (history (exec init evs)) = true /\
  (_complete (self (exec init evs)) = true ->
   _complete (self (exec init (evs ++ evs'))) = true).
Proof.
  split.
  - destruct (inv_history_ok (inv_input_name evs)) as (calls & H & _).
    apply H.
  - intros H. rewrite exec_app.
    apply (exec_complete evs' (inv_input_name evs) H).
Qed.

Lemma complete_is_monotone_witness :
  _complete (self (exec init [Signal "bob"])) = true /\
  _complete (self (exec init ([Signal "bob"] ++
      [Start "World" "alice"; ActivityResolved (Fails ActivityErrored);
       Signal "carol"]))) = true.
Proof.
  split; [reflexivity|].
  apply (proj2 (complete_is_monotone [Signal "bob"]
      [Start "World" "alice"; ActivityResolved (Fails ActivityErrored);
       Signal "carol"])).
  reflexivity.
Defined.

(** C10: two executions whose events differ in the callers' identities
    only end with the same result, the same failure, the same phase and
    the same calls to the Activity Invoker; their histories differ in log
    lines only. *)
Theorem result_independent_of_identity evs1 evs2 :
  Forall2 same_but_identity evs1 evs2 ->
  result (exec init evs1) = result (exec init evs2) /\
  failure (exec init evs1) = failure (exec init evs2) /\
  phase_of (exec init evs1) = phase_of (exec init evs2) /\
  invocations (history (exec init evs1))
    = invocations (history (exec init evs2)) /\
  silent (history (exec init evs1)) = silent (history (exec init evs2)).
Proof.
  intros H.
  assert (Hs : same_but_log (exec init evs1) (exec init evs2)).
  { apply exec_same_but_log; [exact H|]. repeat split. }
  destruct (same_calls_observe (same_but_log_same_calls Hs))
    as (_ & Hr & Hf & Hp & Hi).
  repeat split; auto. apply Hs.
Qed.

Lemma result_independent_of_identity_witness :
  Forall2 same_but_identity
    [Start "World" "alice"; Signal "bob";
     ActivityResolved (Returns "Hello, World!")]
    [Start "World" "mallory"; Signal "eve";
     ActivityResolved (Returns "Hello, World!")] /\
  result (exec init [Start "World" "alice"; Signal "bob";
                     ActivityResolved (Returns "Hello, World!")])
  = result (exec init [Start "World" "mallory"; Signal "eve";
                       ActivityResolved (Returns "Hello, World!")]).
Proof.
  assert (H : Forall2 same_but_identity
    [Start "World" "alice"; Signal "bob";
     ActivityResolved (Returns "Hello, World!")]
    [Start "World" "mallory"; Signal "eve";
     ActivityResolved (Returns "Hello, World!")])
    by (repeat constructor).
  split; [exact H|].
  apply (result_independent_of_identity H).
Defined.

(** ** Further properties of [run] and [signal_complete] *)

Lemma exec_snoc m evs e : exec m (evs ++ [e]) = step e (exec m evs).
Proof. now rewrite exec_app. Qed.

Lemma input_name_snoc evs e :
  input_name (evs ++ [e]) = started (input_name evs) e.
Proof. unfold input_name. now rewrite fold_left_app. Qed.

Lemma log_lines_app h1 h2 : log_lines (h1 ++ h2) = log_lines h1 ++ log_lines h2.
Proof.
  induction h1 as [|[] h1 IH]; simpl; auto.
  now rewrite IH.
Qed.

Lemma is_signal_line_signal caller :
  is_signal_line ("Signal called by user " ++ caller) = true.
Proof. destruct caller; reflexivity. Qed.

Lemma is_signal_line_workflow u :
  is_signal_line ("Workflow called by user " ++ u) = false.
Proof. reflexivity. Qed.

Lemma step_returns o m e R :
  inv o m -> result m = None -> result (step e m) = Some R ->
  e = ActivityResolved (Returns R).
Proof.
  intros H; step_cases H e; rewrite ?advance_after_wait;
    unfold result; cbn; intros; try discriminate; congruence.
Qed.

Lemma step_fails o m e x :
  inv o m -> failure m = None -> failure (step e m) = Some x ->
  exists cause, x = ActivityFailure cause /\ e = ActivityResolved (Fails cause).
Proof.
  intros H; step_cases H e; rewrite ?advance_after_wait;
    unfold failure; cbn; intros; try discriminate.
  exists cause'. split; congruence.
Qed.

Lemma step_rank o m e :
  inv o m ->
  (phase_rank (phase_of m) <= phase_rank (phase_of (step e m)))%nat /\
  (phase_rank (phase_of m) = 3%nat -> main (step e m) = main m).
Proof.
  intros H; step_cases H e; rewrite ?advance_after_wait;
    unfold phase_of; cbn; split; auto; try lia; discriminate.
Qed.

Lemma exec_rank evs : forall o m,
  inv o m ->
  (phase_rank (phase_of m) <= phase_rank (phase_of (exec m evs)))%nat /\
  (phase_rank (phase_of m) = 3%nat -> main (exec m evs) = main m).
Proof.
  induction evs as [|e evs IH]; intros o m H; simpl; [auto|].
  destruct (step_rank e H) as [H1 H2].
  destruct (IH _ _ (step_inv e H)) as [H3 H4].
  split; [lia|]. intros H5.
  specialize (H2 H5). rewrite H4; [exact H2|].
  unfold phase_of. now rewrite H2.
Qed.

Lemma inv_result o m R :
  inv o m -> result m = Some R ->
  _complete (self m) = true /\ o <> None.
Proof.
  intros [s h H|name h H|name h H|name r h H|name cause h H]; simpl;
    unfold result; simpl; intros; try discriminate;
    (split; [reflexivity|discriminate]).
Qed.

Lemma returned_in evs : forall R,
  result (exec init evs) = Some R -> In (ActivityResolved (Returns R)) evs.
Proof.
  induction evs as [|e evs IH] using rev_ind; intros R; [discriminate|].
  rewrite exec_snoc. intros H. apply in_or_app.
  destruct (result (exec init evs)) as [R'|] eqn:E.
  - left. apply IH. rewrite <- H. unfold result in *.
    destruct (main (exec init evs)) eqn:Hm; try discriminate.
    now rewrite (returned_step e _ Hm).
  - right. left.
    apply (step_returns e (inv_input_name evs) E H).
Qed.

Lemma raised_in evs : forall x,
  failure (exec init evs) = Some x ->
  exists cause,
    x = ActivityFailure cause /\ In (ActivityResolved (Fails cause)) evs.
Proof.
  induction evs as [|e evs IH] using rev_ind; intros x; [discriminate|].
  rewrite exec_snoc. intros H.
  destruct (failure (exec init evs)) as [x'|] eqn:E.
  - destruct (IH _ eq_refl) as (cause & -> & Hin).
    exists cause. split; [|apply in_or_app; now left].
    unfold failure in E, H.
    destruct (main (exec init evs)) eqn:Hm; try discriminate.
    destruct (raised_step e _ Hm) as [Hm' _]. rewrite Hm' in H. congruence.
  - destruct (step_fails e (inv_input_name evs) E H) as (cause & -> & ->).
    exists cause. split; [reflexivity|]. apply in_or_app. right. now left.
Qed.

Lemma start_signal_commute_step o m name caller c :
  inv o m ->
  same_calls (exec m [Signal c; Start name caller])
             (exec m [Start name caller; Signal c]).
Proof.
  intros [s h H|n h H|n h H|n r h H|n cause h H];
    try (apply alike_refl).
  destruct s as [[|]]; repeat split; simpl;
    repeat rewrite invocations_app; simpl; now rewrite ?app_nil_r.
Qed.

Lemma can_complete_step o m name caller c R :
  inv o m -> result m = None -> failure m = None ->
  result (exec m [Start name caller; Signal c; ActivityResolved (Returns R)])
    = Some R.
Proof.
  intros [s h H|n h H|n h H|n r h H|n cause h H]; unfold result, failure;
    simpl; intros; try discriminate; try reflexivity.
  destruct s as [[|]]; reflexivity.
Qed.

Lemma step_signal_lines o m e :
  inv o m ->
  filter is_signal_line (log_lines (history (step e m))) =
  filter is_signal_line (log_lines (history m)) ++
  map signal_line (signallers [e]).
Proof.
  intros H; step_cases H e; rewrite ?advance_after_wait;
    cbn [install history signallers map];
    repeat rewrite log_lines_app; repeat rewrite filter_app;
    cbn [log_lines filter app];
    rewrite ?is_signal_line_signal, ?is_signal_line_workflow;
    rewrite ?app_nil_r; reflexivity.
Qed.

Lemma exec_signal_lines evs : forall o m,
  inv o m ->
  filter is_signal_line (log_lines (history (exec m evs))) =
  filter is_signal_line (log_lines (history m)) ++
  map signal_line (signallers evs).
Proof.
  induction evs as [|e evs IH]; intros o m H; simpl exec.
  - simpl. now rewrite app_nil_r.
  - rewrite (IH _ _ (step_inv e H)), (step_signal_lines e H).
    rewrite <- app_assoc. f_equal.
    destruct e; simpl; reflexivity.
Qed.

(** X1: when the activity returns, the resumed [run] does one more thing
    before it returns: it logs the Identity Context, which by then is the
    value ["random"] it set before waiting, whoever started the workflow
    and whoever signalled it.  The object is left as it is. *)
Theorem resumption_logs_random evs R :
  phase_of (exec init evs) = RUNNING_ACTIVITY ->
  history (step (ActivityResolved (Returns R)) (exec init evs)) =
    history (exec init evs) ++ [Logged "Workflow called by user random"] /\
  self (step (ActivityResolved (Returns R)) (exec init evs))
    = self (exec init evs).
Proof.
  intros Hp.
  destruct (inv_phase_running (inv_input_name evs) Hp) as (n & _ & Hm & _).
  unfold step. rewrite Hm, advance_after_activity. split; reflexivity.
Qed.

Lemma resumption_logs_random_witness :
  phase_of (exec init [Signal "bob"; Start "World" "alice"])
    = RUNNING_ACTIVITY /\
  history (step (ActivityResolved (Returns "Hello, World!"))
             (exec init [Signal "bob"; Start "World" "alice"])) =
    history (exec init [Signal "bob"; Start "World" "alice"]) ++
    [Logged "Workflow called by user random"].
Proof.
  split; [reflexivity|].
  apply (resumption_logs_random
           [Signal "bob"; Start "World" "alice"] "Hello, World!").
  reflexivity.
Defined.

(** X2: after any events, [self._complete] is true exactly when a signal
    has been delivered; the activity has been invoked exactly when [run]
    has been started and a signal has been delivered, in either order, and
    then once, with the name of the start; and the instance is still
    unstarted exactly when no start has arrived. *)
Theorem flag_and_calls_characterised evs :
  _complete (self (exec init evs)) = existsb is_signal evs /\
  invocations (history (exec init evs)) =
    match input_name evs with
    | Some name => if existsb is_signal evs then [the_call name] else []
    | None => []
    end /\
  (phase_of (exec init evs) = CREATED <-> input_name evs = None).
Proof.
  split; [apply init_flag|].
  rewrite <- init_flag. apply inv_calls, inv_input_name.
Qed.

(** X3: a result the workflow returns is a string the Activity Invoker
    returned to it: the events hold that answer, a signal and a start. *)
Theorem result_comes_from_activity evs R :
  result (exec init evs) = Some R ->
  In (ActivityResolved (Returns R)) evs /\
  existsb is_signal evs = true /\
  input_name evs <> None.
Proof.
  intros H. split; [now apply returned_in|].
  rewrite <- init_flag. apply (inv_result (inv_input_name evs) H).
Qed.

Lemma result_comes_from_activity_witness :
  result (exec init [Signal "bob"; Start "World" "alice";
                     ActivityResolved (Returns "Hello, World!")])
    = Some "Hello, World!" /\
  In (ActivityResolved (Returns "Hello, World!"))
     [Signal "bob"; Start "World" "alice";
      ActivityResolved (Returns "Hello, World!")].
Proof.
  split; [reflexivity|].
  apply (result_comes_from_activity
           [Signal "bob"; Start "World" "alice";
            ActivityResolved (Returns "Hello, World!")]).
  reflexivity.
Defined.

(** X4: [run] has no [raise] of its own and lets the exception of its
    [await] through as it is: under starts, signals and answers of the
    Activity Invoker, an exception the workflow has ended with is the
    [ActivityFailure] of an invocation that failed, and the events hold
    that failure. *)
Theorem failure_comes_from_activity evs x :
  failure (exec init evs) = Some x ->
  exists cause,
    x = ActivityFailure cause /\ In (ActivityResolved (Fails cause)) evs.
Proof. apply raised_in. Qed.

Lemma failure_comes_from_activity_witness :
  failure (exec init [Start "World" "alice"; Signal "bob";
                      ActivityResolved (Fails ActivityErrored)])
    = Some (ActivityFailure ActivityErrored) /\
  exists cause,
    ActivityFailure ActivityErrored = ActivityFailure cause /\
    In (ActivityResolved (Fails cause))
       [Start "World" "alice"; Signal "bob";
        ActivityResolved (Fails ActivityErrored)].
Proof.
  split; [reflexivity|].
  apply (failure_comes_from_activity
           [Start "World" "alice"; Signal "bob";
            ActivityResolved (Fails ActivityErrored)]).
  reflexivity.
Defined.

(** X5: [run] only moves forward: after further events the instance is in
    the same phase or a later one, and an instance that has returned or
    failed keeps its result and its failure. *)
Theorem phase_never_goes_back evs evs' :
  (phase_rank (phase_of (exec init evs))
   <= phase_rank (phase_of (exec init (evs ++ evs'))))%nat /\
  (phase_rank (phase_of (exec init evs)) = 3%nat ->
   result (exec init (evs ++ evs')) = result (exec init evs) /\
   failure (exec init (evs ++ evs')) = failure (exec init evs)).
Proof.
  rewrite exec_app.
  destruct (exec_rank evs' (inv_input_name evs)) as [H1 H2].
  split; [exact H1|]. intros H3. unfold result, failure.
  now rewrite (H2 H3).
Qed.

Lemma phase_never_goes_back_witness :
  phase_rank (phase_of (exec init
      [Start "World" "alice"; Signal "bob";
       ActivityResolved (Returns "Hello, World!")])) = 3%nat /\
  result (exec init
      ([Start "World" "alice"; Signal "bob";
        ActivityResolved (Returns "Hello, World!")] ++
       [ActivityResolved (Returns "other"); Signal "carol";
        Start "Eve" "eve"]))
  = result (exec init
      [Start "World" "alice"; Signal "bob";
       ActivityResolved (Returns "Hello, World!")]).
Proof.
  split; [reflexivity|].
  apply (proj2 (phase_never_goes_back
      [Start "World" "alice"; Signal "bob";
       ActivityResolved (Returns "Hello, World!")]
      [ActivityResolved (Returns "other"); Signal "carol";
       Start "Eve" "eve"])).
  reflexivity.
Defined.

(** X6: a start and a signal that follow one another can be swapped: with
    the signal first [run] finds the wait condition true and does not
    suspend on it, with the start first the signal resumes it; either way
    the object, the [run] task and the calls to the Activity Invoker are
    the same, then and after any further events. *)
Theorem start_and_signal_commute evs name caller c post :
  self (exec init (evs ++ Signal c :: Start name caller :: post))
    = self (exec init (evs ++ Start name caller :: Signal c :: post)) /\
  main (exec init (evs ++ Signal c :: Start name caller :: post))
    = main (exec init (evs ++ Start name caller :: Signal c :: post)) /\
  invocations (history
      (exec init (evs ++ Signal c :: Start name caller :: post)))
    = invocations (history
      (exec init (evs ++ Start name caller :: Signal c :: post))).
Proof.
  rewrite !exec_app.
  change (Signal c :: Start name caller :: post)
    with ([Signal c; Start name caller] ++ post).
  change (Start name caller :: Signal c :: post)
    with ([Start name caller; Signal c] ++ post).
  rewrite !exec_app.
  apply exec_same_calls.
  apply (start_signal_commute_step name caller c (inv_input_name evs)).
Qed.

(** X7: an instance that has neither returned nor failed can still
    complete: after a start (ignored if [run] has begun), a signal and an
    answer [R] of the Activity Invoker, its result is [R]. *)
Theorem unfinished_instance_can_complete evs name caller c R :
  result (exec init evs) = None ->
  failure (exec init evs) = None ->
  result (exec init (evs ++ [Start name caller; Signal c;
                             ActivityResolved (Returns R)])) = Some R.
Proof.
  intros Hr Hf. rewrite exec_app.
  apply (can_complete_step name caller c R (inv_input_name evs) Hr Hf).
Qed.

Lemma unfinished_instance_can_complete_witness :
  result (exec init [Start "World" "alice";
                     ActivityResolved (Returns "early")]) = None /\
  failure (exec init [Start "World" "alice";
                      ActivityResolved (Returns "early")]) = None /\
  result (exec init ([Start "World" "alice";
                      ActivityResolved (Returns "early")] ++
                     [Start "Eve" "eve"; Signal "bob";
                      ActivityResolved (Returns "Hello, World!")]))
    = Some "Hello, World!".
Proof.
  split; [reflexivity|]. split; [reflexivity|].
  apply (unfinished_instance_can_complete
           [Start "World" "alice"; ActivityResolved (Returns "early")]
           "Eve" "eve" "bob" "Hello, World!"); reflexivity.
Defined.

(** X8: every delivered signal is logged once, with the identity it was
    sent with and in the order of delivery, whatever state the instance is
    in; no other line of the log starts like a signal's line. *)
Theorem every_signal_is_logged evs :
  filter is_signal_line (log_lines (history (exec init evs)))
    = map signal_line (signallers evs).
Proof. apply (exec_signal_lines evs init_inv). Qed.
